(** * Attention notebook (nlp/attention.ipynb)

    The notebook defines two functions on 2-D torch tensors,
    [basic_attention] and [qkv_attention].  Tensors are modelled as a shape
    together with the rows of the matrix.  The torch primitives the notebook
    calls ([matmul], [transpose(-1, -2)], [F.softmax(_, dim=-1)], indexing by
    a LongTensor, multiplication by a scalar) are given their documented
    meaning; [matmul] raises on incompatible shapes, as torch does.

    The functions are embedded twice.  The first embedding has real numbers
    for entries: it describes what the functions compute when every
    operation is exact, and serves where rounding is immaterial (shapes, the
    structure of the computation, values up to a tolerance).  The second
    embedding, module [G], is the same code over any arithmetic; at [ArithR]
    it coincides with the first, and at [ArithF32] it is the float32 program,
    with IEEE 754 binary32 rounding, overflow to infinity and NaN. *)

From Stdlib Require Import Reals Lra Lia List Arith Bool Permutation.
From Stdlib Require Import ZArith SpecFloat Ring.
Import ListNotations.

Set Implicit Arguments.
Open Scope R_scope.

(** ** Exceptions and the error monad *)

Inductive exn : Type :=
| RuntimeError   (* torch.matmul: the inner sizes of the operands differ *)
| IndexError.    (* indexing: an index is out of range for dimension 0 *)

Definition result (A : Type) : Type := (exn + A)%type.

Definition Ok {A : Type} (a : A) : result A := inr a.
Definition Raise {A : Type} (e : exn) : result A := inl e.

Definition bind {A B : Type} (m : result A) (k : A -> result B) : result B :=
  match m with
  | inl e => inl e
  | inr a => k a
  end.

Definition fmap {A B : Type} (f : A -> B) (m : result A) : result B :=
  bind m (fun a => Ok (f a)).

Notation "x <- m ;; k" := (bind m (fun x => k))
  (at level 61, m at next level, right associativity).

(** ** Tensors of dimension two *)

Record Tensor : Type := mkTensor {
  nrows : nat;
  ncols : nat;
  data  : list (list R)
}.

(** A tensor is well formed when its rows agree with its shape. *)
Definition wf (A : Tensor) : bool :=
  (length (data A) =? nrows A)%nat
  && forallb (fun r => (length r =? ncols A)%nat) (data A).

Definition get (A : Tensor) (i j : nat) : R := nth j (nth i (data A) []) 0.

Definition build (t d : nat) (f : nat -> nat -> R) : Tensor :=
  mkTensor t d (map (fun i => map (fun j => f i j) (seq 0 d)) (seq 0 t)).

Definition Rsum (l : list R) : R := fold_right Rplus 0 l.

Definition bigsum (n : nat) (f : nat -> R) : R := Rsum (map f (seq 0 n)).

(** [A.transpose(-1, -2)] *)
Definition transpose (A : Tensor) : Tensor :=
  build (ncols A) (nrows A) (fun i j => get A j i).

(** [A.matmul(B)]: raises when the inner sizes differ. *)
Definition matmul (A B : Tensor) : result Tensor :=
  if (ncols A =? nrows B)%nat
  then Ok (build (nrows A) (ncols B)
             (fun i j => bigsum (ncols A) (fun k => get A i k * get B k j)))
  else Raise RuntimeError.

(** [F.softmax(A, dim=-1)]: each row is exponentiated and divided by the sum
    of its exponentials. *)
Definition softmax_row (r : list R) : list R :=
  let e := map exp r in
  let s := Rsum e in
  map (fun a => a / s) e.

Definition softmax (A : Tensor) : Tensor :=
  mkTensor (nrows A) (ncols A) (map softmax_row (data A)).

(** [A[perm]] for an index tensor [perm]: the rows of [A] in the order the
    index lists them.  Indices are taken non-negative. *)
Definition index_rows (A : Tensor) (perm : list nat) : result Tensor :=
  if forallb (fun i => (i <? nrows A)%nat) perm
  then Ok (mkTensor (length perm) (ncols A)
             (map (fun i => nth i (data A) []) perm))
  else Raise IndexError.

(** [c * A] *)
Definition scale (c : R) (A : Tensor) : Tensor :=
  mkTensor (nrows A) (ncols A) (map (map (Rmult c)) (data A)).

(** [torch.eye(d)] *)
Definition eye (d : nat) : Tensor :=
  build d d (fun i j => if (i =? j)%nat then 1 else 0).

(** [perm] lists every index below [n] exactly once. *)
Fixpoint nodupb (l : list nat) : bool :=
  match l with
  | [] => true
  | a :: l' => negb (existsb (Nat.eqb a) l') && nodupb l'
  end.

Definition is_perm (n : nat) (perm : list nat) : bool :=
  (length perm =? n)%nat && forallb (fun i => (i <? n)%nat) perm && nodupb perm.

(** ** The notebook's functions *)

(** The score matrix [w] of [basic_attention]. *)
Definition basic_attention_w (x : Tensor) : result Tensor :=
  matmul x (transpose x).

(** The matrix [normalized_w] of [basic_attention]. *)
Definition basic_attention_normalized_w (x : Tensor) : result Tensor :=
  w <- basic_attention_w x ;;
  Ok (softmax w).

Definition basic_attention (x : Tensor) : result Tensor :=
  w <- matmul x (transpose x) ;;
  let normalized_w := softmax w in
  y <- matmul normalized_w x ;;
  Ok y.

Section QKV.

(** The projection matrices are globals of the notebook, captured by
    [qkv_attention]. *)
Variables wq wk wv : Tensor.

(** The weight matrix [w] of [qkv_attention], the only one it computes. *)
Definition qkv_attention_w (x : Tensor) : result Tensor :=
  q <- matmul x wq ;;
  k <- matmul x wk ;;
  matmul q (transpose k).

Definition qkv_attention (x : Tensor) : result Tensor :=
  let d := ncols x in
  q <- matmul x wq ;;
  k <- matmul x wk ;;
  v <- matmul x wv ;;
  w <- matmul q (transpose k) ;;
  y <- matmul w v ;;
  Ok y.

(** The attention the notebook's text documents for queries, keys and
    values: scores scaled by [1 / sqrt d], then a row-wise softmax. *)
Definition qkv_attention_documented (x : Tensor) : result Tensor :=
  let d := ncols x in
  q <- matmul x wq ;;
  k <- matmul x wk ;;
  v <- matmul x wv ;;
  s <- matmul q (transpose k) ;;
  let wn := softmax (scale (/ sqrt (INR d)) s) in
  y <- matmul wn v ;;
  Ok y.

End QKV.

(** [basic_attention] without the softmax. *)
Definition basic_attention_unnormalized (x : Tensor) : result Tensor :=
  w <- matmul x (transpose x) ;;
  matmul w x.

(** Entry-wise reading of the score and of its row-wise softmax. *)
Definition dot_rows (x : Tensor) (i j : nat) : R :=
  bigsum (ncols x) (fun k => get x i k * get x j k).

Definition softmax_entry (t : nat) (s : nat -> nat -> R) (i j : nat) : R :=
  exp (s i j) / bigsum t (fun l => exp (s i l)).

(** Entry [(i, j)] of the product [x.matmul(w)]. *)
Definition proj (x w : Tensor) (i j : nat) : R :=
  bigsum (ncols x) (fun k => get x i k * get w k j).

(** The shapes under which every product of [qkv_attention] is defined. *)
Definition qkv_shapes_ok (wq wk wv x : Tensor) : bool :=
  (ncols x =? nrows wq)%nat && (ncols x =? nrows wk)%nat
  && (ncols x =? nrows wv)%nat && (ncols wq =? ncols wk)%nat.

(** Two tensors of the same shape whose entries differ by less than [tol]. *)
Definition close_to (tol : R) (A B : Tensor) : Prop :=
  nrows A = nrows B /\ ncols A = ncols B
  /\ Forall2 (Forall2 (fun a b => Rabs (a - b) < tol)) (data A) (data B).

(** ** Concrete tensors *)

(** The two unit vectors, [[1, 0], [0, 1]]. *)
Definition x_units : Tensor := mkTensor 2 2 [[1; 0]; [0; 1]].

Definition w_units_expected : Tensor :=
  mkTensor 2 2 [[731 / 1000; 269 / 1000]; [269 / 1000; 731 / 1000]].

(** A single vector, [[2, 0]]. *)
Definition x_single : Tensor := mkTensor 1 2 [[2; 0]].

(** Two opposite vectors, [[1, 0], [-1, 0]]. *)
Definition x_opposite : Tensor := mkTensor 2 2 [[1; 0]; [-1; 0]].

(** A sequence of length zero, [torch.zeros(0, 2)]. *)
Definition x_empty : Tensor := mkTensor 0 2 [].

(** The index tensor of the notebook, [torch.LongTensor([0, 1, 3, 2])]. *)
Definition perm : list nat := [0; 1; 3; 2]%nat.

(** Four vectors of dimension two. *)
Definition x_four : Tensor := mkTensor 4 2 [[1; 2]; [0; 1]; [3; -1]; [2; 2]].

(** A pair of 2 x 2 weights that are not the identity. *)
Definition w_a : Tensor := mkTensor 2 2 [[1; 2]; [0; 1]].
Definition w_b : Tensor := mkTensor 2 2 [[0; 1]; [-1; 3]].

(** Four vectors, the first and the last equal. *)
Definition x_twice : Tensor := mkTensor 4 2 [[1; 2]; [0; 1]; [3; -1]; [1; 2]].

(** ** The same functions over any arithmetic *)

(** The number type of a tensor and the operations the notebook's functions
    use on it. *)
Record Arith : Type := mkArith {
  num  : Type;
  zero : num;
  one  : num;
  add  : num -> num -> num;
  mul  : num -> num -> num;
  sub  : num -> num -> num;
  div  : num -> num -> num;
  maxf : num -> num -> num;
  expf : num -> num
}.

Module G.
Section Over.

Variable A : Arith.

Record Tensor : Type := mkTensor {
  nrows : nat;
  ncols : nat;
  data  : list (list (num A))
}.

Definition wf (T : Tensor) : bool :=
  (length (data T) =? nrows T)%nat
  && forallb (fun r => (length r =? ncols T)%nat) (data T).

Definition get (T : Tensor) (i j : nat) : num A :=
  nth j (nth i (data T) []) (zero A).

Definition build (t d : nat) (f : nat -> nat -> num A) : Tensor :=
  mkTensor t d (map (fun i => map (fun j => f i j) (seq 0 d)) (seq 0 t)).

(** A reduction of a row, accumulated from left to right. *)
Definition reduce (op : num A -> num A -> num A) (l : list (num A)) : num A :=
  match l with
  | [] => zero A
  | a :: l' => fold_left op l' a
  end.

Definition sum (l : list (num A)) : num A := reduce (add A) l.

Definition bigsum (n : nat) (f : nat -> num A) : num A :=
  sum (map f (seq 0 n)).

(** [T.transpose(-1, -2)] *)
Definition transpose (T : Tensor) : Tensor :=
  build (ncols T) (nrows T) (fun i j => get T j i).

(** [T.matmul(U)]: raises when the inner sizes differ; each entry is the sum
    of the products, the first product first. *)
Definition matmul (T U : Tensor) : result Tensor :=
  if (ncols T =? nrows U)%nat
  then Ok (build (nrows T) (ncols U)
             (fun i j => bigsum (ncols T)
                           (fun k => mul A (get T i k) (get U k j))))
  else Raise RuntimeError.

Definition rowmax (l : list (num A)) : num A := reduce (maxf A) l.

(** [F.softmax(_, dim=-1)] as torch computes it: the row maximum is
    subtracted before exponentiating. *)
Definition softmax_row (r : list (num A)) : list (num A) :=
  let m := rowmax r in
  let e := map (fun v => expf A (sub A v m)) r in
  let s := sum e in
  map (fun v => div A v s) e.

Definition softmax (T : Tensor) : Tensor :=
  mkTensor (nrows T) (ncols T) (map softmax_row (data T)).

(** [T[perm]] for an index tensor [perm] of non-negative indices. *)
Definition index_rows (T : Tensor) (perm : list nat) : result Tensor :=
  if forallb (fun i => (i <? nrows T)%nat) perm
  then Ok (mkTensor (length perm) (ncols T)
             (map (fun i => nth i (data T) []) perm))
  else Raise IndexError.

(** [c * T] *)
Definition scale (c : num A) (T : Tensor) : Tensor :=
  mkTensor (nrows T) (ncols T) (map (map (mul A c)) (data T)).

(** [torch.eye(d)] *)
Definition eye (d : nat) : Tensor :=
  build d d (fun i j => if (i =? j)%nat then one A else zero A).

(** The notebook's functions; the weights of [qkv_attention], globals of the
    notebook, are its first three arguments. *)
Definition basic_attention (x : Tensor) : result Tensor :=
  w <- matmul x (transpose x) ;;
  let normalized_w := softmax w in
  y <- matmul normalized_w x ;;
  Ok y.

Definition qkv_attention (wq wk wv x : Tensor) : result Tensor :=
  let d := ncols x in
  q <- matmul x wq ;;
  k <- matmul x wk ;;
  v <- matmul x wv ;;
  w <- matmul q (transpose k) ;;
  y <- matmul w v ;;
  Ok y.

(** Entry (i, j) of the score of [basic_attention], and of a product. *)
Definition dot_rows (x : Tensor) (i j : nat) : num A :=
  bigsum (ncols x) (fun k => mul A (get x i k) (get x j k)).

Definition proj (x w : Tensor) (i j : nat) : num A :=
  bigsum (ncols x) (fun k => mul A (get x i k) (get w k j)).

(** The shapes under which every product of [qkv_attention] is defined. *)
Definition shapes_ok (wq wk wv x : Tensor) : bool :=
  (ncols x =? nrows wq)%nat && (ncols x =? nrows wk)%nat
  && (ncols x =? nrows wv)%nat && (ncols wq =? ncols wk)%nat.

End Over.
End G.

(** Exact arithmetic. *)
Definition ArithR : Arith :=
  mkArith 0%R 1%R Rplus Rmult Rminus Rdiv Rmax exp.

(** A tensor of the exact model, read as a tensor over [ArithR]. *)
Definition of_R (T : Tensor) : G.Tensor ArithR :=
  G.mkTensor ArithR (nrows T) (ncols T) (data T).

(** float32: IEEE 754 binary32, round to nearest even.  [None] stands for a
    value the standard leaves to the implementation: the exponential of a
    finite non-zero number. *)
Definition f32 : Type := option spec_float.

Definition f32_lift2 (op : spec_float -> spec_float -> spec_float)
           (a b : f32) : f32 :=
  match a, b with
  | Some x, Some y => Some (op x y)
  | _, _ => None
  end.

(** The maximum of two floats; a NaN operand gives NaN. *)
Definition f32_max (x y : spec_float) : spec_float :=
  match x, y with
  | S754_nan, _ => S754_nan
  | _, S754_nan => S754_nan
  | _, _ => if SFltb x y then y else x
  end.

(** The exponential, where the C standard fixes its value: 1 at a zero,
    [+0] at minus infinity, infinity at infinity, NaN at NaN. *)
Definition f32_exp (a : f32) : f32 :=
  match a with
  | Some S754_nan => Some S754_nan
  | Some (S754_zero _) => Some (SFone 24 128)
  | Some (S754_infinity false) => Some (S754_infinity false)
  | Some (S754_infinity true) => Some (S754_zero false)
  | _ => None
  end.

Definition ArithF32 : Arith :=
  mkArith (Some (S754_zero false)) (Some (SFone 24 128))
          (f32_lift2 (SFadd 24 128)) (f32_lift2 (SFmul 24 128))
          (f32_lift2 (SFsub 24 128)) (f32_lift2 (SFdiv 24 128))
          (f32_lift2 f32_max) f32_exp.

(** The float32 nearest to an integer. *)
Definition f32_of_Z (z : Z) : f32 := Some (binary_normalize 24 128 z 0 false).

(** A proper float32 value, and a finite one. *)
Definition f32_valid (a : f32) : bool :=
  match a with
  | Some v => valid_binary 24 128 v
  | None => false
  end.

Definition f32_finite (a : f32) : bool :=
  match a with
  | Some (S754_zero _) | Some (S754_finite _ _ _) => true
  | _ => false
  end.

(** ** float32 inputs *)

(** Three vectors of dimension one, [[4096], [1], [1]], and the index that
    reverses them. *)
Definition f32_x_three : G.Tensor ArithF32 :=
  G.mkTensor ArithF32 3 1 [[f32_of_Z 4096]; [f32_of_Z 1]; [f32_of_Z 1]].

Definition reversal : list nat := [2; 1; 0]%nat.

(** One vector, [[3, -4]]. *)
Definition f32_x_single : G.Tensor ArithF32 :=
  G.mkTensor ArithF32 1 2 [[f32_of_Z 3; f32_of_Z (-4)]].

(** One vector whose square overflows, [[1e20, 0]]. *)
Definition f32_x_large : G.Tensor ArithF32 :=
  G.mkTensor ArithF32 1 2 [[f32_of_Z (10 ^ 20); f32_of_Z 0]].

(** [[257]] and [[2 ^ 50]]. *)
Definition f32_x_257 : G.Tensor ArithF32 :=
  G.mkTensor ArithF32 1 1 [[f32_of_Z 257]].

Definition f32_x_pow50 : G.Tensor ArithF32 :=
  G.mkTensor ArithF32 1 1 [[f32_of_Z (2 ^ 50)]].

(** The scalar [2 ^ -10]. *)
Definition f32_pow_m10 : f32 := Some (S754_finite false 8388608 (-33)).

(** ** Row selection with indices of any sign *)

(** The row an index of a LongTensor selects among [t] rows: a negative
    index counts from the end. *)
Definition wrap_index (t : nat) (i : Z) : option nat :=
  if ((0 <=? i) && (i <? Z.of_nat t))%Z then Some (Z.to_nat i)
  else if ((- Z.of_nat t <=? i) && (i <? 0))%Z
       then Some (Z.to_nat (i + Z.of_nat t))
       else None.

(** [A[perm]] for an index tensor [perm] of any sign. *)
Definition index_rows_long (A : Tensor) (perm : list Z) : result Tensor :=
  if forallb (fun i => match wrap_index (nrows A) i with
                       | Some _ => true
                       | None => false
                       end) perm
  then Ok (mkTensor (length perm) (ncols A)
             (map (fun i => match wrap_index (nrows A) i with
                            | Some k => nth k (data A) []
                            | None => []
                            end) perm))
  else Raise IndexError.

(** ** Sums *)

Lemma Rsum_app (l1 l2 : list R) : Rsum (l1 ++ l2) = Rsum l1 + Rsum l2.
Proof.
  induction l1 as [|a l1 IH]; simpl.
  - ring.
  - rewrite IH. ring.
Qed.

Lemma Rsum_map_scal (A : Type) (c : R) (f : A -> R) (l : list A) :
  Rsum (map (fun a => c * f a) l) = c * Rsum (map f l).
Proof.
  induction l as [|a l IH]; simpl.
  - ring.
  - rewrite IH. ring.
Qed.

Lemma Rsum_map_pos (A : Type) (f : A -> R) (l : list A) :
  (forall a, 0 < f a) -> l <> [] -> 0 < Rsum (map f l).
Proof.
  intros Hf. induction l as [|a l IH]; intros Hl.
  - now contradiction Hl.
  - simpl. destruct l as [|b l].
    + simpl. specialize (Hf a). lra.
    + assert (0 < Rsum (map f (b :: l))) by (apply IH; discriminate).
      specialize (Hf a). lra.
Qed.

Lemma map_seq_nth (A : Type) (d : A) (l : list A) :
  map (fun k => nth k l d) (seq 0 (length l)) = l.
Proof.
  induction l as [|a l IH]; simpl.
  - reflexivity.
  - f_equal. rewrite <- seq_shift, map_map. exact IH.
Qed.

Lemma map_seq_ext (A : Type) (f g : nat -> A) (n : nat) :
  (forall k, (k < n)%nat -> f k = g k) ->
  map f (seq 0 n) = map g (seq 0 n).
Proof.
  intros H. apply map_ext_in. intros k Hk.
  apply in_seq in Hk. apply H. lia.
Qed.

Lemma nth_map_seq (A : Type) (f : nat -> A) (n k : nat) (d : A) :
  (k < n)%nat -> nth k (map f (seq 0 n)) d = f k.
Proof.
  intros Hk.
  rewrite (nth_indep _ d (f 0%nat)) by (now rewrite length_map, length_seq).
  rewrite map_nth, seq_nth by assumption. reflexivity.
Qed.

Lemma bigsum_ext (n : nat) (f g : nat -> R) :
  (forall k, (k < n)%nat -> f k = g k) -> bigsum n f = bigsum n g.
Proof.
  intros H. unfold bigsum. now rewrite (map_seq_ext f g H).
Qed.

Lemma bigsum_scal (n : nat) (c : R) (f : nat -> R) :
  bigsum n (fun k => c * f k) = c * bigsum n f.
Proof. unfold bigsum. apply Rsum_map_scal. Qed.

Lemma bigsum_S (n : nat) (f : nat -> R) :
  bigsum (S n) f = bigsum n f + f n.
Proof.
  unfold bigsum. rewrite seq_S, map_app, Rsum_app. simpl. ring.
Qed.

Lemma bigsum_zero (n : nat) (f : nat -> R) :
  (forall k, (k < n)%nat -> f k = 0) -> bigsum n f = 0.
Proof.
  induction n as [|n IH]; intros H.
  - reflexivity.
  - rewrite bigsum_S, IH by (intros; apply H; lia).
    rewrite H by lia. ring.
Qed.

(** A sum against a Kronecker delta picks one term. *)
Lemma bigsum_delta (n j : nat) (f : nat -> R) :
  (j < n)%nat ->
  bigsum n (fun k => f k * (if (k =? j)%nat then 1 else 0)) = f j.
Proof.
  induction n as [|n IH]; intros Hj.
  - lia.
  - rewrite bigsum_S. destruct (Nat.eq_dec j n) as [->|Hne].
    + rewrite Nat.eqb_refl, bigsum_zero.
      * ring.
      * intros k Hk. destruct (Nat.eqb_spec k n); [lia | ring].
    + rewrite IH by lia. destruct (Nat.eqb_spec n j); [lia | ring].
Qed.

Lemma Rsum_map_nth (f : R -> R) (r : list R) :
  Rsum (map f r) = bigsum (length r) (fun l => f (nth l r 0)).
Proof.
  unfold bigsum.
  rewrite <- (map_map (fun k => nth k r 0) f), map_seq_nth. reflexivity.
Qed.

(** ** Index lists that are permutations *)

Lemma is_perm_length (n : nat) (p : list nat) :
  is_perm n p = true -> length p = n.
Proof.
  unfold is_perm. intros H.
  apply andb_prop in H. destruct H as [H _].
  apply andb_prop in H. destruct H as [H _].
  now apply Nat.eqb_eq.
Qed.

Lemma is_perm_bound (n : nat) (p : list nat) :
  is_perm n p = true -> forallb (fun i => (i <? n)%nat) p = true.
Proof.
  unfold is_perm. intros H.
  apply andb_prop in H. destruct H as [H _].
  apply andb_prop in H. now destruct H as [_ H].
Qed.

(** ** Tensors built entry by entry *)

Lemma get_build (t d : nat) (f : nat -> nat -> R) (i j : nat) :
  (i < t)%nat -> (j < d)%nat -> get (build t d f) i j = f i j.
Proof.
  intros Hi Hj. unfold get, build. simpl.
  rewrite nth_map_seq by assumption. now apply nth_map_seq.
Qed.

Lemma build_ext (t d : nat) (f g : nat -> nat -> R) :
  (forall i j, (i < t)%nat -> (j < d)%nat -> f i j = g i j) ->
  build t d f = build t d g.
Proof.
  intros H. unfold build. f_equal.
  apply map_seq_ext. intros i Hi.
  apply map_seq_ext. intros j Hj. now apply H.
Qed.

Lemma wf_build (t d : nat) (f : nat -> nat -> R) : wf (build t d f) = true.
Proof.
  unfold wf, build. simpl.
  rewrite length_map, length_seq, Nat.eqb_refl. simpl.
  apply forallb_forall. intros r Hr.
  apply in_map_iff in Hr. destruct Hr as [i [<- _]].
  rewrite length_map, length_seq. apply Nat.eqb_refl.
Qed.

Lemma wf_length (A : Tensor) : wf A = true -> length (data A) = nrows A.
Proof.
  unfold wf. intros H. apply andb_prop in H. now apply Nat.eqb_eq.
Qed.

Lemma wf_row_length (A : Tensor) (i : nat) :
  wf A = true -> (i < nrows A)%nat -> length (nth i (data A) []) = ncols A.
Proof.
  intros H Hi. pose proof (wf_length _ H) as Hlen.
  unfold wf in H. apply andb_prop in H. destruct H as [_ H].
  rewrite forallb_forall in H. apply Nat.eqb_eq, H, nth_In. lia.
Qed.

(** A well-formed tensor is determined by its shape and its entries. *)
Lemma build_get (A : Tensor) :
  wf A = true -> build (nrows A) (ncols A) (get A) = A.
Proof.
  intros H. pose proof (wf_length _ H) as Hlen.
  pose proof (fun i => @wf_row_length A i H) as Hrow.
  destruct A as [t d rows]. simpl in Hlen, Hrow. unfold build, get. simpl.
  f_equal. subst t.
  transitivity (map (fun i => nth i rows []) (seq 0 (length rows))).
  - apply map_seq_ext. intros i Hi.
    rewrite <- (Hrow i Hi). apply map_seq_nth.
  - apply map_seq_nth.
Qed.

Lemma get_transpose (A : Tensor) (i j : nat) :
  (i < ncols A)%nat -> (j < nrows A)%nat -> get (transpose A) i j = get A j i.
Proof. intros Hi Hj. unfold transpose. now rewrite get_build. Qed.

Lemma matmul_ok (A B : Tensor) :
  ncols A = nrows B ->
  matmul A B =
  Ok (build (nrows A) (ncols B)
        (fun i j => bigsum (ncols A) (fun k => get A i k * get B k j))).
Proof. intros H. unfold matmul. now rewrite H, Nat.eqb_refl. Qed.

(** ** Softmax *)

Lemma nth_softmax_row (r : list R) (j : nat) :
  (j < length r)%nat ->
  nth j (softmax_row r) 0 =
  exp (nth j r 0) / bigsum (length r) (fun l => exp (nth l r 0)).
Proof.
  intros Hj. unfold softmax_row.
  rewrite <- Rsum_map_nth.
  set (s := Rsum (map exp r)).
  rewrite (nth_indep _ 0 (exp 0 / s)) by (now rewrite !length_map).
  rewrite (map_nth (fun a => a / s) (map exp r) (exp 0)).
  now rewrite map_nth.
Qed.

Lemma get_softmax (A : Tensor) (i j : nat) :
  wf A = true -> (i < nrows A)%nat -> (j < ncols A)%nat ->
  get (softmax A) i j =
  exp (get A i j) / bigsum (ncols A) (fun l => exp (get A i l)).
Proof.
  intros H Hi Hj. unfold get, softmax. simpl.
  change (@nil R) with (softmax_row []) at 1.
  rewrite map_nth.
  rewrite nth_softmax_row by (now rewrite wf_row_length).
  now rewrite wf_row_length.
Qed.

Lemma get_softmax_build (t d : nat) (f : nat -> nat -> R) (i j : nat) :
  (i < t)%nat -> (j < d)%nat ->
  get (softmax (build t d f)) i j = softmax_entry d f i j.
Proof.
  intros Hi Hj. rewrite get_softmax by (try apply wf_build; assumption).
  unfold softmax_entry. simpl. rewrite get_build by assumption.
  f_equal. apply bigsum_ext. intros l Hl. now rewrite get_build.
Qed.

Lemma bigsum_exp_pos (n : nat) (f : nat -> R) :
  (0 < n)%nat -> 0 < bigsum n (fun l => exp (f l)).
Proof.
  intros Hn. unfold bigsum. apply Rsum_map_pos.
  - intros a. apply exp_pos.
  - destruct n; [lia | discriminate].
Qed.

Lemma softmax_entry_pos (t : nat) (s : nat -> nat -> R) (i j : nat) :
  (0 < t)%nat -> 0 < softmax_entry t s i j.
Proof.
  intros Ht. unfold softmax_entry.
  apply Rdiv_lt_0_compat; [apply exp_pos | now apply bigsum_exp_pos].
Qed.

Lemma softmax_entry_sum (t : nat) (s : nat -> nat -> R) (i : nat) :
  (0 < t)%nat -> bigsum t (softmax_entry t s i) = 1.
Proof.
  intros Ht. unfold softmax_entry.
  pose proof (bigsum_exp_pos (s i) Ht) as Hpos.
  set (D := bigsum t (fun l => exp (s i l))) in *.
  rewrite (bigsum_ext _ (fun j => / D * exp (s i j)))
    by (intros; unfold Rdiv; ring).
  rewrite bigsum_scal. fold D. field. lra.
Qed.

(** ** Closed forms of the notebook's functions *)

Lemma basic_attention_w_closed (x : Tensor) :
  basic_attention_w x = Ok (build (nrows x) (nrows x) (dot_rows x)).
Proof.
  unfold basic_attention_w. rewrite matmul_ok by reflexivity. simpl.
  f_equal. apply build_ext. intros i j Hi Hj.
  apply bigsum_ext. intros k Hk. now rewrite get_transpose.
Qed.

Lemma basic_attention_normalized_w_closed (x : Tensor) :
  basic_attention_normalized_w x =
  Ok (softmax (build (nrows x) (nrows x) (dot_rows x))).
Proof.
  unfold basic_attention_normalized_w.
  now rewrite basic_attention_w_closed.
Qed.

Lemma basic_attention_closed (x : Tensor) :
  basic_attention x =
  Ok (build (nrows x) (ncols x)
        (fun i j =>
           bigsum (nrows x)
             (fun k => softmax_entry (nrows x) (dot_rows x) i k * get x k j))).
Proof.
  unfold basic_attention.
  change (matmul x (transpose x)) with (basic_attention_w x).
  rewrite basic_attention_w_closed. simpl.
  rewrite matmul_ok by reflexivity. simpl.
  f_equal. apply build_ext. intros i j Hi Hj.
  apply bigsum_ext. intros k Hk. now rewrite get_softmax_build.
Qed.

Lemma qkv_attention_closed (wq wk wv x : Tensor) :
  qkv_attention wq wk wv x =
  if qkv_shapes_ok wq wk wv x
  then Ok (build (nrows x) (ncols wv)
             (fun i j =>
                bigsum (nrows x)
                  (fun k =>
                     bigsum (ncols wq)
                       (fun l => proj x wq i l * proj x wk k l)
                     * proj x wv k j)))
  else Raise RuntimeError.
Proof.
  unfold qkv_attention, qkv_shapes_ok, matmul.
  destruct (ncols x =? nrows wq)%nat; [|reflexivity].
  destruct (ncols x =? nrows wk)%nat; [|reflexivity].
  destruct (ncols x =? nrows wv)%nat; [|reflexivity].
  simpl.
  destruct (Nat.eqb_spec (ncols wq) (ncols wk)) as [E|]; [|reflexivity].
  simpl. rewrite Nat.eqb_refl. simpl.
  f_equal. apply build_ext. intros i j Hi Hj.
  apply bigsum_ext. intros k Hk.
  rewrite !get_build by assumption. f_equal.
  apply bigsum_ext. intros l Hl.
  rewrite get_build by assumption.
  rewrite get_transpose by (simpl; lia).
  rewrite get_build by lia. reflexivity.
Qed.

Lemma qkv_attention_w_closed (wq wk : Tensor) (x : Tensor) :
  qkv_attention_w wq wk x =
  if (ncols x =? nrows wq)%nat && (ncols x =? nrows wk)%nat
     && (ncols wq =? ncols wk)%nat
  then Ok (build (nrows x) (nrows x)
             (fun i k => bigsum (ncols wq)
                           (fun l => proj x wq i l * proj x wk k l)))
  else Raise RuntimeError.
Proof.
  unfold qkv_attention_w, matmul.
  destruct (ncols x =? nrows wq)%nat; [|reflexivity].
  destruct (ncols x =? nrows wk)%nat; [|reflexivity].
  simpl.
  destruct (Nat.eqb_spec (ncols wq) (ncols wk)) as [E|]; [|reflexivity].
  simpl. f_equal. apply build_ext. intros i j Hi Hj.
  apply bigsum_ext. intros l Hl.
  rewrite get_build by assumption.
  rewrite get_transpose by (simpl; lia).
  rewrite get_build by lia. reflexivity.
Qed.

(** ** Row selection *)

Lemma index_rows_ok (x : Tensor) (p : list nat) :
  is_perm (nrows x) p = true ->
  index_rows x p =
  Ok (mkTensor (nrows x) (ncols x) (map (fun i => nth i (data x) []) p)).
Proof.
  intros H. unfold index_rows.
  now rewrite (is_perm_bound _ _ H), (is_perm_length _ _ H).
Qed.

(** ** The identity matrix *)

Lemma proj_eye (x : Tensor) (i j : nat) :
  (j < ncols x)%nat -> proj x (eye (ncols x)) i j = get x i j.
Proof.
  intros Hj. unfold proj.
  rewrite (bigsum_ext _ (fun k => get x i k * (if (k =? j)%nat then 1 else 0))).
  - now apply bigsum_delta.
  - intros k Hk. unfold eye. now rewrite get_build.
Qed.

(** ** Properties of [basic_attention] and [qkv_attention] *)

(** C2: for an input [x] of shape (t, d), [basic_attention] returns
    [y = wn . x]: the score [w] it computes has the dot product of rows [i]
    and [j] of [x] at entry (i, j), [normalized_w] is the row-wise softmax
    of that score, and entry (i, j) of the result is the sum over [k] of
    [normalized_w[i][k] * x[k][j]]. *)
Theorem basic_attention_weighted_sum (x : Tensor) :
  exists s wn y,
    basic_attention_w x = Ok s
    /\ (forall i j, (i < nrows x)%nat -> (j < nrows x)%nat ->
          get s i j = bigsum (ncols x) (fun k => get x i k * get x j k))
    /\ basic_attention_normalized_w x = Ok wn
    /\ (forall i j, (i < nrows x)%nat -> (j < nrows x)%nat ->
          get wn i j =
          exp (get s i j) / bigsum (nrows x) (fun l => exp (get s i l)))
    /\ basic_attention x = Ok y
    /\ matmul wn x = Ok y
    /\ nrows y = nrows x /\ ncols y = ncols x
    /\ (forall i j, (i < nrows x)%nat -> (j < ncols x)%nat ->
          get y i j = bigsum (nrows x) (fun k => get wn i k * get x k j)).
Proof.
  exists (build (nrows x) (nrows x) (dot_rows x)).
  exists (softmax (build (nrows x) (nrows x) (dot_rows x))).
  eexists.
  split; [apply basic_attention_w_closed|].
  split; [intros i j Hi Hj; now rewrite get_build|].
  split; [apply basic_attention_normalized_w_closed|].
  split.
  { intros i j Hi Hj. rewrite get_softmax_build by assumption.
    unfold softmax_entry. rewrite get_build by assumption.
    f_equal. apply bigsum_ext. intros l Hl. now rewrite get_build. }
  split; [apply basic_attention_closed|].
  split.
  { rewrite matmul_ok by reflexivity. simpl. f_equal.
    apply build_ext. intros i j Hi Hj. apply bigsum_ext. intros k Hk.
    now rewrite get_softmax_build. }
  split; [reflexivity|]. split; [reflexivity|].
  intros i j Hi Hj. rewrite get_build by assumption.
  apply bigsum_ext. intros k Hk. now rewrite get_softmax_build.
Qed.

(** C7: for [x] of shape (t, d), [basic_attention] returns a tensor of
    shape (t, d), and so does [qkv_attention] when the three weights have
    shape (d, d). *)
Theorem attention_shape_preserved (wq wk wv x : Tensor) :
  nrows wq = ncols x -> ncols wq = ncols x ->
  nrows wk = ncols x -> ncols wk = ncols x ->
  nrows wv = ncols x -> ncols wv = ncols x ->
  (exists y, basic_attention x = Ok y
             /\ nrows y = nrows x /\ ncols y = ncols x /\ wf y = true)
  /\ (exists y, qkv_attention wq wk wv x = Ok y
                /\ nrows y = nrows x /\ ncols y = ncols x /\ wf y = true).
Proof.
  intros Hq1 Hq2 Hk1 Hk2 Hv1 Hv2. split.
  - eexists. split; [apply basic_attention_closed|].
    repeat split. apply wf_build.
  - eexists. split.
    + rewrite qkv_attention_closed. unfold qkv_shapes_ok.
      rewrite Hq1, Hk1, Hv1, Hq2, Hk2, !Nat.eqb_refl. simpl. reflexivity.
    + simpl. repeat split; [assumption | apply wf_build].
Qed.

Lemma attention_shape_preserved_witness :
  (exists y, basic_attention x_four = Ok y
             /\ nrows y = 4%nat /\ ncols y = 2%nat /\ wf y = true)
  /\ (exists y, qkv_attention w_a w_b (eye 2) x_four = Ok y
                /\ nrows y = 4%nat /\ ncols y = 2%nat /\ wf y = true).
Proof.
  apply (@attention_shape_preserved w_a w_b (eye 2) x_four); reflexivity.
Defined.

(** C6: with the 2 x 2 identity for the three weights, [qkv_attention]
    returns [(x . x^T) . x], the result of [basic_attention] without its
    softmax and without any scaling. *)
Theorem qkv_attention_identity_weights (x : Tensor) :
  ncols x = 2%nat ->
  qkv_attention (eye 2) (eye 2) (eye 2) x = basic_attention_unnormalized x
  /\ exists y, basic_attention_unnormalized x = Ok y
               /\ nrows y = nrows x /\ ncols y = ncols x
               /\ forall i j, (i < nrows x)%nat -> (j < ncols x)%nat ->
                    get y i j =
                    bigsum (nrows x) (fun k => dot_rows x i k * get x k j).
Proof.
  intros H2.
  assert (basic_attention_unnormalized x =
          Ok (build (nrows x) (ncols x)
                (fun i j =>
                   bigsum (nrows x) (fun k => dot_rows x i k * get x k j))))
    as Hclosed.
  { unfold basic_attention_unnormalized.
    change (matmul x (transpose x)) with (basic_attention_w x).
    rewrite basic_attention_w_closed. simpl.
    rewrite matmul_ok by reflexivity. simpl. f_equal.
    apply build_ext. intros i j Hi Hj. apply bigsum_ext. intros k Hk.
    now rewrite get_build. }
  split.
  - rewrite Hclosed, qkv_attention_closed. unfold qkv_shapes_ok.
    rewrite H2. simpl. f_equal. rewrite <- H2.
    apply build_ext. intros i j Hi Hj. apply bigsum_ext. intros k Hk.
    rewrite proj_eye by assumption. f_equal.
    unfold dot_rows. apply bigsum_ext. intros l Hl.
    now rewrite !proj_eye.
  - eexists. split; [exact Hclosed|]. repeat split.
    intros i j Hi Hj. now rewrite get_build.
Qed.

Lemma qkv_attention_identity_weights_witness :
  ncols x_four = 2%nat
  /\ qkv_attention (eye 2) (eye 2) (eye 2) x_four
     = basic_attention_unnormalized x_four.
Proof.
  split; [reflexivity|].
  apply (@qkv_attention_identity_weights x_four). reflexivity.
Defined.

(** ** Evaluation on concrete tensors *)

Ltac tensor_eval :=
  unfold basic_attention, basic_attention_normalized_w, basic_attention_w,
    qkv_attention, qkv_attention_w, qkv_attention_documented,
    matmul, transpose, softmax, softmax_row, scale, eye, build, bigsum, get,
    Ok, bind;
  cbn [nrows ncols data Nat.eqb map seq nth Rsum fold_right].

Ltac rows_eq :=
  apply f_equal; apply f_equal;
  repeat match goal with
         | |- _ :: _ = _ :: _ => f_equal
         end.

(** ** Bounds on [e], by squaring [exp (1 / 128)] seven times *)

Lemma exp_double_bounds (x l h l' h' : R) :
  0 <= l -> l' <= l * l -> h * h <= h' ->
  l <= exp x <= h -> l' <= exp (2 * x) <= h'.
Proof.
  intros Hl Hl' Hh' [H1 H2].
  replace (2 * x) with (x + x) by ring. rewrite exp_plus.
  split; nra.
Qed.

Lemma exp_1_bounds : 2.7077 < exp 1 < 2.7290.
Proof.
  assert (H7 : 1.0078125 <= exp (1 / 128) <= 1.00787402).
  { split.
    - pose proof (exp_ineq1_le (1 / 128)). lra.
    - pose proof (exp_ineq1_le (- (1 / 128))) as H.
      rewrite exp_Ropp in H.
      pose proof (exp_pos (1 / 128)) as Hpos.
      assert (exp (1 / 128) * / exp (1 / 128) = 1) by (field; lra).
      nra. }
  assert (H6 : 1.01568603 <= exp (1 / 64) <= 1.01581005).
  { replace (1 / 64) with (2 * (1 / 128)) by lra.
    apply exp_double_bounds with (4 := H7); lra. }
  assert (H5 : 1.03161811 <= exp (1 / 32) <= 1.03187006).
  { replace (1 / 32) with (2 * (1 / 64)) by lra.
    apply exp_double_bounds with (4 := H6); lra. }
  assert (H4 : 1.06423592 <= exp (1 / 16) <= 1.06475583).
  { replace (1 / 16) with (2 * (1 / 32)) by lra.
    apply exp_double_bounds with (4 := H5); lra. }
  assert (H3 : 1.13259809 <= exp (1 / 8) <= 1.13370498).
  { replace (1 / 8) with (2 * (1 / 16)) by lra.
    apply exp_double_bounds with (4 := H4); lra. }
  assert (H2 : 1.28277843 <= exp (1 / 4) <= 1.28528699).
  { replace (1 / 4) with (2 * (1 / 8)) by lra.
    apply exp_double_bounds with (4 := H3); lra. }
  assert (H1 : 1.6455205 <= exp (1 / 2) <= 1.65196265).
  { replace (1 / 2) with (2 * (1 / 4)) by lra.
    apply exp_double_bounds with (4 := H2); lra. }
  assert (H0 : 2.70773771 <= exp 1 <= 2.7289806).
  { replace (exp 1) with (exp (2 * (1 / 2))) by (f_equal; lra).
    apply exp_double_bounds with (4 := H1); lra. }
  lra.
Qed.

(** The two softmax weights of a row with scores 1 and 0. *)
Lemma softmax_one_zero :
  Rabs (exp 1 / (exp 1 + 1) - 731 / 1000) < 1 / 1000
  /\ Rabs (1 / (exp 1 + 1) - 269 / 1000) < 1 / 1000.
Proof.
  pose proof exp_1_bounds as [Hlo Hhi].
  set (e := exp 1) in *.
  assert (0 < / (e + 1)) as Hinv by (apply Rinv_0_lt_compat; lra).
  assert ((e + 1) * / (e + 1) = 1) as Hmul by (field; lra).
  unfold Rdiv. split; apply Rabs_def1; nra.
Qed.

(** C8: on [x = [[1, 0], [0, 1]]] the score of [basic_attention] is
    [[1, 0], [0, 1]], and both its softmax weights and its result are within
    1e-3 of [[0.731, 0.269], [0.269, 0.731]]. *)
Theorem basic_attention_unit_vectors :
  basic_attention_w x_units = Ok x_units
  /\ exists wn y,
       basic_attention_normalized_w x_units = Ok wn
       /\ basic_attention x_units = Ok y
       /\ close_to (1 / 1000) wn w_units_expected
       /\ close_to (1 / 1000) y w_units_expected.
Proof.
  pose proof softmax_one_zero as [Ha Hb].
  split.
  { unfold x_units. tensor_eval. rows_eq; ring. }
  exists (mkTensor 2 2 [[exp 1 / (exp 1 + 1); 1 / (exp 1 + 1)];
                        [1 / (exp 1 + 1); exp 1 / (exp 1 + 1)]]).
  exists (mkTensor 2 2 [[exp 1 / (exp 1 + 1); 1 / (exp 1 + 1)];
                        [1 / (exp 1 + 1); exp 1 / (exp 1 + 1)]]).
  assert (forall a : R, a = 0 -> exp a = 1) as E0
      by (intros a ->; apply exp_0).
  assert (forall a : R, a = 1 -> exp a = exp 1) as E1 by (now intros a ->).
  pose proof (exp_pos 1) as Hpos.
  split; [|split].
  - unfold x_units. tensor_eval. rows_eq.
    all: repeat match goal with
                | |- context [exp ?a] =>
                  first [ rewrite (E0 a) by ring
                        | progress rewrite (E1 a) by ring ]
                end.
    all: field; lra.
  - unfold x_units. tensor_eval. rows_eq.
    all: repeat match goal with
                | |- context [exp ?a] =>
                  first [ rewrite (E0 a) by ring
                        | progress rewrite (E1 a) by ring ]
                end.
    all: field; lra.
  - split; (split; [reflexivity|split; [reflexivity|]]);
      unfold w_units_expected; simpl data;
      repeat constructor; assumption.
Qed.

(** C1: on [x = [[2, 0]]] with identity weights, [qkv_attention] returns
    [[8, 0]], the raw product [(q . k^T) . v]; the documented attention,
    which scales the score by [1 / sqrt d] and applies softmax to each row,
    gives [[2, 0]]. *)
Theorem qkv_attention_omits_softmax :
  qkv_attention (eye 2) (eye 2) (eye 2) x_single = Ok (mkTensor 1 2 [[8; 0]])
  /\ qkv_attention_documented (eye 2) (eye 2) (eye 2) x_single
     = Ok (mkTensor 1 2 [[2; 0]])
  /\ qkv_attention (eye 2) (eye 2) (eye 2) x_single
     <> qkv_attention_documented (eye 2) (eye 2) (eye 2) x_single.
Proof.
  assert (qkv_attention (eye 2) (eye 2) (eye 2) x_single
          = Ok (mkTensor 1 2 [[8; 0]])) as Hcode.
  { unfold x_single. tensor_eval. rows_eq; ring. }
  assert (qkv_attention_documented (eye 2) (eye 2) (eye 2) x_single
          = Ok (mkTensor 1 2 [[2; 0]])) as Hdoc.
  { unfold x_single. tensor_eval. rows_eq.
    all: match goal with
         | |- context [exp ?a] =>
           pose proof (exp_pos a); generalize dependent (exp a); intros
         end.
    all: field; lra. }
  split; [exact Hcode|]. split; [exact Hdoc|].
  rewrite Hcode, Hdoc. intros E.
  assert (get (mkTensor 1 2 [[8; 0]]) 0 0 = get (mkTensor 1 2 [[2; 0]]) 0 0)
    as E' by (injection E as E; now rewrite E).
  unfold get in E'. simpl in E'. lra.
Qed.

(** The weights [basic_attention] normalises are row-stochastic: every
    entry is positive and every row sums to one. *)
Lemma basic_attention_row_stochastic (x : Tensor) :
  exists wn,
    basic_attention_normalized_w x = Ok wn
    /\ nrows wn = nrows x /\ ncols wn = nrows x
    /\ forall i, (i < nrows x)%nat ->
         bigsum (nrows x) (get wn i) = 1
         /\ forall j, (j < nrows x)%nat -> 0 < get wn i j.
Proof.
  eexists. split; [apply basic_attention_normalized_w_closed|].
  split; [reflexivity|]. split; [reflexivity|].
  intros i Hi. split.
  - rewrite <- (@softmax_entry_sum (nrows x) (dot_rows x) i) by lia.
    apply bigsum_ext. intros j Hj. now rewrite get_softmax_build.
  - intros j Hj. rewrite get_softmax_build by assumption.
    apply softmax_entry_pos. lia.
Qed.

(** C4: on [x = [[1, 0], [-1, 0]]] with identity weights, the only weight
    matrix [qkv_attention] computes is [[1, -1], [-1, 1]]: it has negative
    entries and its rows sum to zero, not to one. *)
Theorem qkv_attention_weights_not_stochastic :
  qkv_attention_w (eye 2) (eye 2) x_opposite
  = Ok (mkTensor 2 2 [[1; -1]; [-1; 1]])
  /\ qkv_attention (eye 2) (eye 2) (eye 2) x_opposite
     = matmul (mkTensor 2 2 [[1; -1]; [-1; 1]]) x_opposite
  /\ get (mkTensor 2 2 [[1; -1]; [-1; 1]]) 0 1 < 0
  /\ bigsum 2 (get (mkTensor 2 2 [[1; -1]; [-1; 1]]) 0) = 0.
Proof.
  split; [|split; [|split]].
  - unfold x_opposite. tensor_eval. rows_eq; ring.
  - unfold x_opposite. tensor_eval. rows_eq; ring.
  - unfold get. simpl. lra.
  - unfold bigsum, get. simpl. ring.
Qed.

(** C5, as stated, fails: a sequence of length zero raises nothing, both
    functions return the empty (0, 2) tensor. *)
Lemma empty_input_accepted :
  nrows x_empty = 0%nat
  /\ basic_attention x_empty = Ok x_empty
  /\ qkv_attention (eye 2) (eye 2) (eye 2) x_empty = Ok x_empty.
Proof. repeat split. Qed.

(** ** More on sums *)

Lemma bigsum_le (n : nat) (f g : nat -> R) :
  (forall k, (k < n)%nat -> f k <= g k) -> bigsum n f <= bigsum n g.
Proof.
  induction n as [|n IH]; intros H.
  - unfold bigsum. simpl. lra.
  - rewrite !bigsum_S.
    assert (bigsum n f <= bigsum n g) by (apply IH; intros; apply H; lia).
    assert (f n <= g n) by (apply H; lia). lra.
Qed.

Lemma bigsum_nonneg (n : nat) (f : nat -> R) :
  (forall k, (k < n)%nat -> 0 <= f k) -> 0 <= bigsum n f.
Proof.
  intros H. rewrite <- (@bigsum_zero n (fun _ => 0)) by reflexivity.
  now apply bigsum_le.
Qed.

(** ** Further properties of [basic_attention] *)

(** X4: the score matrix of [basic_attention] is symmetric and its diagonal
    is non-negative. *)
Theorem basic_attention_score_symmetric (x : Tensor) :
  exists s, basic_attention_w x = Ok s
            /\ transpose s = s
            /\ forall i, 0 <= get s i i.
Proof.
  exists (build (nrows x) (nrows x) (dot_rows x)).
  split; [apply basic_attention_w_closed|]. split.
  - unfold transpose. simpl. apply build_ext. intros i j Hi Hj.
    rewrite get_build by assumption. unfold dot_rows.
    apply bigsum_ext. intros k _. ring.
  - intros i. destruct (Nat.lt_ge_cases i (nrows x)) as [Hi|Hi].
    + rewrite get_build by assumption. unfold dot_rows.
      apply bigsum_nonneg. intros k _. nra.
    + unfold get, build. simpl.
      rewrite (nth_overflow _ [])
        by (now rewrite length_map, length_seq).
      destruct i; simpl; lra.
Qed.

(** ** Row selection and repeated vectors *)

Lemma softmax_entry_ext (t : nat) (s s' : nat -> nat -> R) (i i' k : nat) :
  (k < t)%nat ->
  (forall l, (l < t)%nat -> s i l = s' i' l) ->
  softmax_entry t s i k = softmax_entry t s' i' k.
Proof.
  intros Hk H. unfold softmax_entry. rewrite (H k Hk). f_equal.
  apply bigsum_ext. intros l Hl. now rewrite H.
Qed.

(** X10: selecting rows by a permutation and then by its inverse gives the
    tensor back, as [x[perm][perm]] does for the index of the notebook,
    which is its own inverse. *)
Theorem index_rows_inverse (x : Tensor) (p q : list nat) :
  wf x = true ->
  is_perm (nrows x) p = true ->
  is_perm (nrows x) q = true ->
  map (fun i => nth i p 0%nat) q = seq 0 (nrows x) ->
  (xp <- index_rows x p ;; index_rows xp q) = Ok x.
Proof.
  intros Hwf Hp Hq Hinv.
  rewrite index_rows_ok by assumption. simpl.
  rewrite index_rows_ok by assumption. simpl.
  pose proof (wf_length _ Hwf) as Hlen.
  destruct x as [t d rows]. simpl in *. f_equal. f_equal.
  rewrite (map_ext_in _ (fun i => nth (nth i p 0%nat) rows [])).
  - rewrite <- (map_map (fun i => nth i p 0%nat) (fun k => nth k rows [])).
    rewrite Hinv, <- Hlen. apply map_seq_nth.
  - intros i Hi.
    pose proof (is_perm_bound _ _ Hq) as Hb.
    rewrite forallb_forall in Hb. apply Hb, Nat.ltb_lt in Hi.
    rewrite (nth_indep _ [] (nth 0 rows []))
      by (now rewrite length_map, (is_perm_length _ _ Hp)).
    now rewrite (map_nth (fun i => nth i rows []) p 0%nat).
Qed.

Lemma index_rows_inverse_witness :
  (xp <- index_rows x_four perm ;; index_rows xp perm) = Ok x_four.
Proof.
  apply (@index_rows_inverse x_four perm perm); reflexivity.
Defined.

(** X11: neither function sees positions: two equal input vectors get equal
    outputs, from [basic_attention] and from [qkv_attention]. *)
Theorem attention_equal_rows (wq wk wv x : Tensor) (i i' : nat) :
  (i < nrows x)%nat -> (i' < nrows x)%nat ->
  (forall k, (k < ncols x)%nat -> get x i k = get x i' k) ->
  qkv_shapes_ok wq wk wv x = true ->
  (exists y, basic_attention x = Ok y
             /\ forall j, (j < ncols x)%nat -> get y i j = get y i' j)
  /\ (exists y, qkv_attention wq wk wv x = Ok y
                /\ forall j, (j < ncols wv)%nat -> get y i j = get y i' j).
Proof.
  intros Hi Hi' Heq Hok. split.
  - eexists. split; [apply basic_attention_closed|].
    intros j Hj. rewrite !get_build by assumption.
    apply bigsum_ext. intros k Hk. f_equal.
    apply softmax_entry_ext; [assumption|]. intros l Hl.
    unfold dot_rows. apply bigsum_ext. intros c Hc. now rewrite Heq.
  - eexists. split; [rewrite qkv_attention_closed, Hok; reflexivity|].
    intros j Hj. rewrite !get_build by assumption.
    apply bigsum_ext. intros k Hk. f_equal.
    apply bigsum_ext. intros l Hl. f_equal.
    unfold proj. apply bigsum_ext. intros c Hc. now rewrite Heq.
Qed.

Lemma attention_equal_rows_witness :
  (exists y, basic_attention x_twice = Ok y
             /\ forall j, (j < 2)%nat -> get y 0 j = get y 3 j)
  /\ (exists y, qkv_attention w_a w_b (eye 2) x_twice = Ok y
                /\ forall j, (j < 2)%nat -> get y 0 j = get y 3 j).
Proof.
  apply (@attention_equal_rows w_a w_b (eye 2) x_twice 0 3);
    try (simpl; lia); reflexivity.
Defined.

(** ** Index lists as permutations *)

Lemma nodupb_NoDup (l : list nat) : nodupb l = true -> NoDup l.
Proof.
  induction l as [|a l IH]; simpl; intros H.
  - constructor.
  - apply andb_prop in H. destruct H as [Ha Hl].
    constructor; [|now apply IH].
    intros Hin. apply negb_true_iff in Ha.
    assert (existsb (Nat.eqb a) l = true) as E.
    { apply existsb_exists. exists a. split; [assumption | apply Nat.eqb_refl]. }
    congruence.
Qed.

Lemma is_perm_Permutation (n : nat) (p : list nat) :
  is_perm n p = true -> Permutation p (seq 0 n).
Proof.
  intros H. pose proof (is_perm_length _ _ H) as Hlen.
  pose proof (is_perm_bound _ _ H) as Hb.
  unfold is_perm in H. apply andb_prop in H. destruct H as [_ Hnd].
  apply NoDup_Permutation_bis.
  - now apply nodupb_NoDup.
  - rewrite length_seq. lia.
  - intros i Hi. rewrite forallb_forall in Hb.
    apply Hb in Hi. apply Nat.ltb_lt in Hi. apply in_seq. lia.
Qed.

Lemma is_perm_nth (n : nat) (p : list nat) (k : nat) :
  is_perm n p = true -> (k < n)%nat -> (nth k p 0%nat < n)%nat.
Proof.
  intros H Hk. pose proof (is_perm_bound _ _ H) as Hb.
  rewrite forallb_forall in Hb. apply Nat.ltb_lt, Hb, nth_In.
  now rewrite (is_perm_length _ _ H).
Qed.

(** ** Facts that hold in every arithmetic *)

Section AnyArithmetic.

Variable A : Arith.

Lemma G_get_build (t d : nat) (f : nat -> nat -> num A) (i j : nat) :
  (i < t)%nat -> (j < d)%nat -> G.get (G.build A t d f) i j = f i j.
Proof.
  intros Hi Hj. unfold G.get, G.build. simpl.
  rewrite nth_map_seq by assumption. now apply nth_map_seq.
Qed.

Lemma G_build_ext (t d : nat) (f g : nat -> nat -> num A) :
  (forall i j, (i < t)%nat -> (j < d)%nat -> f i j = g i j) ->
  G.build A t d f = G.build A t d g.
Proof.
  intros H. unfold G.build. f_equal.
  apply map_seq_ext. intros i Hi.
  apply map_seq_ext. intros j Hj. now apply H.
Qed.

Lemma G_wf_build (t d : nat) (f : nat -> nat -> num A) :
  G.wf (G.build A t d f) = true.
Proof.
  unfold G.wf, G.build. simpl.
  rewrite length_map, length_seq, Nat.eqb_refl. simpl.
  apply forallb_forall. intros r Hr.
  apply in_map_iff in Hr. destruct Hr as [i [<- _]].
  rewrite length_map, length_seq. apply Nat.eqb_refl.
Qed.

Lemma G_build_get (T : G.Tensor A) :
  G.wf T = true -> G.build A (G.nrows T) (G.ncols T) (G.get T) = T.
Proof.
  intros H. unfold G.wf in H. apply andb_prop in H. destruct H as [Hlen Hrow].
  apply Nat.eqb_eq in Hlen. rewrite forallb_forall in Hrow.
  destruct T as [t d rows]. simpl in *. unfold G.build, G.get. simpl.
  f_equal. subst t.
  transitivity (map (fun i => nth i rows []) (seq 0 (length rows))).
  - apply map_seq_ext. intros i Hi.
    assert (length (nth i rows []) = d) as <-
        by (apply Nat.eqb_eq, Hrow, nth_In; assumption).
    apply map_seq_nth.
  - apply map_seq_nth.
Qed.

Lemma G_bigsum_ext (n : nat) (f g : nat -> num A) :
  (forall k, (k < n)%nat -> f k = g k) -> G.bigsum A n f = G.bigsum A n g.
Proof.
  intros H. unfold G.bigsum. now rewrite (map_seq_ext f g H).
Qed.

Lemma G_matmul_ok (T U : G.Tensor A) :
  G.ncols T = G.nrows U ->
  G.matmul T U =
  Ok (G.build A (G.nrows T) (G.ncols U)
        (fun i j => G.bigsum A (G.ncols T)
                      (fun k => mul A (G.get T i k) (G.get U k j)))).
Proof. intros H. unfold G.matmul. now rewrite H, Nat.eqb_refl. Qed.

(** The softmax weight of entry [k] of a row of scores. *)
Lemma G_softmax_row_map (r : list (num A)) :
  G.softmax_row A r =
  map (fun v => div A (expf A (sub A v (G.rowmax A r)))
                    (G.sum A (map (fun v => expf A (sub A v (G.rowmax A r))) r)))
      r.
Proof. unfold G.softmax_row. now rewrite map_map. Qed.

Lemma G_get_softmax_build (t d : nat) (s : nat -> nat -> num A) (i k : nat) :
  (i < t)%nat ->
  G.get (G.softmax (G.build A t d s)) i k =
  nth k (G.softmax_row A (map (s i) (seq 0 d))) (zero A).
Proof.
  intros Hi. unfold G.get, G.softmax, G.build. simpl.
  rewrite map_map. now rewrite nth_map_seq.
Qed.

Lemma G_basic_attention_closed (x : G.Tensor A) :
  G.basic_attention x =
  Ok (G.build A (G.nrows x) (G.ncols x)
        (fun i j =>
           G.bigsum A (G.nrows x)
             (fun k =>
                mul A (nth k (G.softmax_row A
                                (map (G.dot_rows x i) (seq 0 (G.nrows x))))
                           (zero A))
                      (G.get x k j)))).
Proof.
  unfold G.basic_attention.
  rewrite G_matmul_ok by reflexivity. simpl.
  rewrite G_matmul_ok by reflexivity. simpl. f_equal.
  apply G_build_ext. intros i j Hi Hj.
  apply G_bigsum_ext. intros k Hk.
  rewrite G_get_softmax_build by assumption. f_equal. f_equal. f_equal.
  apply map_seq_ext. intros l Hl. unfold G.dot_rows.
  apply G_bigsum_ext. intros c Hc. unfold G.transpose.
  now rewrite G_get_build.
Qed.

Lemma G_qkv_attention_closed (wq wk wv x : G.Tensor A) :
  G.qkv_attention wq wk wv x =
  if G.shapes_ok wq wk wv x
  then Ok (G.build A (G.nrows x) (G.ncols wv)
             (fun i j =>
                G.bigsum A (G.nrows x)
                  (fun k =>
                     mul A (G.bigsum A (G.ncols wq)
                              (fun l => mul A (G.proj x wq i l)
                                              (G.proj x wk k l)))
                           (G.proj x wv k j))))
  else Raise RuntimeError.
Proof.
  unfold G.qkv_attention, G.shapes_ok, G.matmul.
  destruct (G.ncols x =? G.nrows wq)%nat; [|reflexivity].
  destruct (G.ncols x =? G.nrows wk)%nat; [|reflexivity].
  destruct (G.ncols x =? G.nrows wv)%nat; [|reflexivity].
  simpl.
  destruct (Nat.eqb_spec (G.ncols wq) (G.ncols wk)) as [E|]; [|reflexivity].
  simpl. rewrite Nat.eqb_refl. simpl.
  f_equal. apply G_build_ext. intros i j Hi Hj.
  apply G_bigsum_ext. intros k Hk.
  rewrite !G_get_build by assumption. f_equal.
  apply G_bigsum_ext. intros l Hl.
  rewrite G_get_build by assumption.
  unfold G.transpose. rewrite G_get_build by (simpl; lia).
  rewrite G_get_build by lia. reflexivity.
Qed.

End AnyArithmetic.

(** ** Reductions whose operation is associative and commutative *)

Section OrderInsensitive.

Variable A : Arith.
Variable op : num A -> num A -> num A.
Hypothesis op_comm : forall a b, op a b = op b a.
Hypothesis op_assoc : forall a b c, op a (op b c) = op (op a b) c.

Lemma fold_left_Permutation (l l' : list (num A)) :
  Permutation l l' -> forall a, fold_left op l a = fold_left op l' a.
Proof.
  induction 1 as [| x l l' _ IH | x y l | l l' l'' _ IH1 _ IH2];
    intros a; simpl.
  - reflexivity.
  - apply IH.
  - f_equal. rewrite <- !op_assoc. f_equal. apply op_comm.
  - now rewrite IH1.
Qed.

Lemma reduce_Permutation (l l' : list (num A)) :
  Permutation l l' -> G.reduce A op l = G.reduce A op l'.
Proof.
  induction 1 as [| x l l' H _ | x y l | l l' l'' _ IH1 _ IH2]; simpl.
  - reflexivity.
  - now apply fold_left_Permutation.
  - f_equal. apply op_comm.
  - now rewrite IH1.
Qed.

End OrderInsensitive.

(** ** Permuting the rows, when sums do not depend on the order of terms *)

Section Equivariance.

Variable A : Arith.
Hypothesis add_comm : forall a b, add A a b = add A b a.
Hypothesis add_assoc :
  forall a b c, add A a (add A b c) = add A (add A a b) c.
Hypothesis max_comm : forall a b, maxf A a b = maxf A b a.
Hypothesis max_assoc :
  forall a b c, maxf A a (maxf A b c) = maxf A (maxf A a b) c.

Lemma G_bigsum_perm (n : nat) (p : list nat) (f : nat -> num A) :
  is_perm n p = true ->
  G.bigsum A n (fun k => f (nth k p 0%nat)) = G.bigsum A n f.
Proof.
  intros H. unfold G.bigsum, G.sum.
  rewrite <- (map_map (fun k => nth k p 0%nat) f).
  rewrite <- (is_perm_length _ _ H) at 1.
  rewrite map_seq_nth.
  apply reduce_Permutation; try assumption.
  apply Permutation_map, is_perm_Permutation, H.
Qed.

Lemma G_softmax_row_perm (n : nat) (p : list nat) (g : nat -> num A)
      (k : nat) :
  is_perm n p = true -> (k < n)%nat ->
  nth k (G.softmax_row A (map g p)) (zero A)
  = nth (nth k p 0%nat) (G.softmax_row A (map g (seq 0 n))) (zero A).
Proof.
  intros H Hk.
  pose proof (is_perm_Permutation _ _ H) as HP.
  pose proof (is_perm_length _ _ H) as Hlen.
  pose proof (@is_perm_nth n p k H Hk) as Hpk.
  assert (G.rowmax A (map g p) = G.rowmax A (map g (seq 0 n))) as Hmax
      by (apply reduce_Permutation; try assumption; now apply Permutation_map).
  rewrite !G_softmax_row_map, Hmax.
  set (m := G.rowmax A (map g (seq 0 n))).
  assert (G.sum A (map (fun v => expf A (sub A v m)) (map g p))
          = G.sum A (map (fun v => expf A (sub A v m)) (map g (seq 0 n))))
    as ->
      by (apply reduce_Permutation; try assumption;
          now apply Permutation_map, Permutation_map).
  set (h := fun v => div A (expf A (sub A v m)) _).
  rewrite !map_map.
  rewrite (nth_indep _ (zero A) (h (g 0%nat)))
    by (now rewrite length_map, Hlen).
  rewrite (map_nth (fun i => h (g i)) p 0%nat).
  now rewrite nth_map_seq.
Qed.

Lemma G_index_rows_ok (x : G.Tensor A) (p : list nat) :
  is_perm (G.nrows x) p = true ->
  G.index_rows x p =
  Ok (G.mkTensor A (G.nrows x) (G.ncols x)
        (map (fun i => nth i (G.data x) []) p)).
Proof.
  intros H. unfold G.index_rows.
  now rewrite (is_perm_bound _ _ H), (is_perm_length _ _ H).
Qed.

Lemma G_get_selected (t d : nat) (rows : list (list (num A))) (p : list nat)
      (i j : nat) :
  (i < length p)%nat ->
  G.get (G.mkTensor A t d (map (fun i => nth i rows []) p)) i j =
  nth j (nth (nth i p 0%nat) rows []) (zero A).
Proof.
  intros Hi. unfold G.get. simpl.
  rewrite (nth_indep _ [] (nth 0 rows [])) by (now rewrite length_map).
  now rewrite (map_nth (fun i => nth i rows []) p 0%nat).
Qed.

Lemma G_index_rows_build (t d : nat) (g : nat -> nat -> num A)
      (p : list nat) :
  is_perm t p = true ->
  G.index_rows (G.build A t d g) p =
  Ok (G.build A t d (fun i j => g (nth i p 0%nat) j)).
Proof.
  intros H. rewrite G_index_rows_ok by assumption.
  unfold G.build. simpl. f_equal. f_equal.
  rewrite <- (map_seq_nth 0%nat p) at 1.
  rewrite map_map, (is_perm_length _ _ H).
  apply map_seq_ext. intros i Hi.
  apply nth_map_seq. now apply is_perm_nth.
Qed.

(** C3, amended: whenever the reductions do not depend on the order of their
    terms (addition and maximum associative and commutative, as in exact
    arithmetic), permuting the rows of the input permutes the rows of the
    output in the same way, for [basic_attention] and, with the weights held
    fixed, for [qkv_attention]. *)
Theorem attention_equivariant_up_to_order
        (wq wk wv x : G.Tensor A) (p : list nat) :
  is_perm (G.nrows x) p = true ->
  (exists yp,
      (xp <- G.index_rows x p ;; G.basic_attention xp) = Ok yp
      /\ (y <- G.basic_attention x ;; G.index_rows y p) = Ok yp)
  /\ (xp <- G.index_rows x p ;; G.qkv_attention wq wk wv xp)
     = (y <- G.qkv_attention wq wk wv x ;; G.index_rows y p).
Proof.
  intros H. pose proof (is_perm_length _ _ H) as Hlen.
  set (xp := G.mkTensor A (G.nrows x) (G.ncols x)
               (map (fun i => nth i (G.data x) []) p)).
  assert (forall i j, (i < G.nrows x)%nat ->
            G.get xp i j = G.get x (nth i p 0%nat) j) as Hget
      by (intros i j Hi; apply G_get_selected; now rewrite Hlen).
  split.
  - eexists. split.
    + rewrite G_index_rows_ok by assumption. simpl.
      rewrite G_basic_attention_closed. simpl. reflexivity.
    + rewrite G_basic_attention_closed. simpl.
      rewrite G_index_rows_build by assumption. f_equal.
      apply G_build_ext. intros i j Hi Hj.
      rewrite <- (@G_bigsum_perm (G.nrows x) p _ H). fold xp.
      apply G_bigsum_ext. intros k Hk.
      rewrite <- (@G_softmax_row_perm (G.nrows x) p _ k H Hk).
      rewrite Hget by assumption. f_equal. f_equal. f_equal.
      replace (map (G.dot_rows x (nth i p 0%nat)) p)
        with (map (fun l => G.dot_rows x (nth i p 0%nat) (nth l p 0%nat))
                  (seq 0 (G.nrows x)))
        by (rewrite <- (map_map (fun l => nth l p 0%nat)), <- Hlen;
            now rewrite map_seq_nth).
      apply map_seq_ext. intros l Hl.
      unfold G.dot_rows. apply G_bigsum_ext. intros c Hc.
      now rewrite !Hget.
  - rewrite G_index_rows_ok by assumption. simpl. fold xp.
    rewrite !G_qkv_attention_closed. unfold G.shapes_ok. simpl.
    destruct ((G.ncols x =? G.nrows wq)%nat && (G.ncols x =? G.nrows wk)%nat
              && (G.ncols x =? G.nrows wv)%nat
              && (G.ncols wq =? G.ncols wk)%nat);
      [|reflexivity].
    simpl. rewrite G_index_rows_build by assumption. f_equal.
    apply G_build_ext. intros i j Hi Hj. symmetry.
    rewrite <- (@G_bigsum_perm (G.nrows x) p _ H).
    assert (forall w i j, (i < G.nrows x)%nat ->
              G.proj xp w i j = G.proj x w (nth i p 0%nat) j) as Hproj.
    { intros w i' j' Hi'. unfold G.proj. simpl.
      apply G_bigsum_ext. intros c Hc. now rewrite Hget. }
    apply G_bigsum_ext. intros k Hk. symmetry.
    rewrite Hproj by assumption. f_equal.
    apply G_bigsum_ext. intros l Hl. now rewrite !Hproj.
Qed.

End Equivariance.

Lemma attention_equivariant_up_to_order_witness :
  is_perm (G.nrows (of_R x_four)) perm = true
  /\ (exists yp,
         (xp <- G.index_rows (of_R x_four) perm ;; G.basic_attention xp)
         = Ok yp
         /\ (y <- G.basic_attention (of_R x_four) ;; G.index_rows y perm)
            = Ok yp)
  /\ (xp <- G.index_rows (of_R x_four) perm ;;
      G.qkv_attention (of_R w_a) (of_R w_b) (of_R (eye 2)) xp)
     = (y <- G.qkv_attention (of_R w_a) (of_R w_b) (of_R (eye 2))
               (of_R x_four) ;;
        G.index_rows y perm).
Proof.
  split; [reflexivity|].
  apply (@attention_equivariant_up_to_order ArithR
           Rplus_comm (fun a b c => eq_sym (Rplus_assoc a b c))
           Rmax_comm Rmax_assoc
           (of_R w_a) (of_R w_b) (of_R (eye 2)) (of_R x_four) perm).
  reflexivity.
Defined.

(** C3, as stated, fails in float32, where addition is not associative: on
    [[4096], [1], [1]] with 1 x 1 identity weights, reversing the rows and
    then calling [qkv_attention] gives 16777218 where reversing the result
    gives 16777216. *)
Lemma f32_permutation_changes_rounding :
  is_perm (G.nrows f32_x_three) reversal = true
  /\ (xp <- G.index_rows f32_x_three reversal ;;
      G.qkv_attention (G.eye ArithF32 1) (G.eye ArithF32 1)
                      (G.eye ArithF32 1) xp)
     = Ok (G.mkTensor ArithF32 3 1
             [[f32_of_Z 16777218]; [f32_of_Z 16777218];
              [f32_of_Z 68719484928]])
  /\ (y <- G.qkv_attention (G.eye ArithF32 1) (G.eye ArithF32 1)
                           (G.eye ArithF32 1) f32_x_three ;;
      G.index_rows y reversal)
     = Ok (G.mkTensor ArithF32 3 1
             [[f32_of_Z 16777216]; [f32_of_Z 16777216];
              [f32_of_Z 68719476736]])
  /\ (xp <- G.index_rows f32_x_three reversal ;;
      G.qkv_attention (G.eye ArithF32 1) (G.eye ArithF32 1)
                      (G.eye ArithF32 1) xp)
     <> (y <- G.qkv_attention (G.eye ArithF32 1) (G.eye ArithF32 1)
                              (G.eye ArithF32 1) f32_x_three ;;
         G.index_rows y reversal).
Proof.
  split; [reflexivity|]. split; [reflexivity|]. split; [reflexivity|].
  intros E.
  apply (f_equal (fun r : result (G.Tensor ArithF32) =>
                    match r with
                    | inr t => G.get t 0 0
                    | inl _ => zero ArithF32
                    end)) in E.
  change (f32_of_Z 16777218 = f32_of_Z 16777216) in E.
  vm_compute in E. discriminate E.
Qed.

(** ** Scaling the input, when the arithmetic is a commutative semiring *)

Section Homogeneity.

Variable A : Arith.
Hypothesis SR : semi_ring_theory (zero A) (one A) (add A) (mul A) eq.

Add Ring ArithRing : SR.

Lemma G_fold_left_add (l : list (num A)) (a b : num A) :
  fold_left (add A) l (add A a b) = add A a (fold_left (add A) l b).
Proof.
  revert b. induction l as [|c l IH]; intros b; simpl.
  - reflexivity.
  - rewrite <- IH. f_equal. ring.
Qed.

Lemma G_sum_cons (a : num A) (l : list (num A)) :
  G.sum A (a :: l) = add A a (G.sum A l).
Proof.
  unfold G.sum, G.reduce. destruct l as [|b l]; simpl.
  - ring.
  - apply G_fold_left_add.
Qed.

Lemma G_sum_map_scal (B : Type) (c : num A) (f : B -> num A) (l : list B) :
  G.sum A (map (fun b => mul A c (f b)) l) = mul A c (G.sum A (map f l)).
Proof.
  induction l as [|b l IH].
  - simpl. ring.
  - change (map ?g (b :: l)) with (g b :: map g l).
    rewrite !G_sum_cons, IH. ring.
Qed.

Lemma G_bigsum_scal (n : nat) (c : num A) (f : nat -> num A) :
  G.bigsum A n (fun k => mul A c (f k)) = mul A c (G.bigsum A n f).
Proof. unfold G.bigsum. apply G_sum_map_scal. Qed.

Lemma G_get_scale (c : num A) (T : G.Tensor A) (i j : nat) :
  G.get (G.scale c T) i j = mul A c (G.get T i j).
Proof.
  unfold G.get, G.scale. simpl.
  change (@nil (num A)) with (map (mul A c) []) at 1.
  rewrite map_nth.
  generalize (nth i (G.data T) []). intros r. revert j.
  induction r as [|a r IH]; intros [|j]; simpl; try ring; auto.
Qed.

Lemma G_scale_build (c : num A) (t d : nat) (f : nat -> nat -> num A) :
  G.scale c (G.build A t d f) = G.build A t d (fun i j => mul A c (f i j)).
Proof.
  unfold G.scale, G.build. simpl. f_equal.
  rewrite map_map. apply map_ext. intros i. now rewrite map_map.
Qed.

Lemma G_proj_scale (c : num A) (x w : G.Tensor A) (i j : nat) :
  G.proj (G.scale c x) w i j = mul A c (G.proj x w i j).
Proof.
  unfold G.proj. simpl. rewrite <- G_bigsum_scal.
  apply G_bigsum_ext. intros k _. rewrite G_get_scale. ring.
Qed.

(** C10, amended: in an arithmetic that obeys the laws of a commutative
    semiring (exact arithmetic), [qkv_attention] is homogeneous of degree
    three in its input: multiplying [x] by [c] multiplies the result by
    [c * c * c], and the two calls raise together. *)
Theorem qkv_attention_cubic_in_semiring (wq wk wv x : G.Tensor A) (c : num A) :
  G.qkv_attention wq wk wv (G.scale c x)
  = fmap (G.scale (mul A (mul A c c) c)) (G.qkv_attention wq wk wv x).
Proof.
  rewrite !G_qkv_attention_closed. unfold G.shapes_ok. simpl.
  destruct ((G.ncols x =? G.nrows wq)%nat && (G.ncols x =? G.nrows wk)%nat
            && (G.ncols x =? G.nrows wv)%nat
            && (G.ncols wq =? G.ncols wk)%nat);
    [|reflexivity].
  unfold fmap. simpl. f_equal. rewrite G_scale_build.
  apply G_build_ext. intros i j Hi Hj.
  rewrite <- G_bigsum_scal. apply G_bigsum_ext. intros k Hk.
  rewrite G_proj_scale.
  rewrite (@G_bigsum_ext A _ _
             (fun l => mul A (mul A c c)
                         (mul A (G.proj x wq i l) (G.proj x wk k l)))).
  - rewrite G_bigsum_scal. ring.
  - intros l Hl. rewrite !G_proj_scale. ring.
Qed.

End Homogeneity.

Lemma R_semi_ring : semi_ring_theory 0%R 1%R Rplus Rmult eq.
Proof.
  constructor; intros; try ring.
Qed.

Lemma qkv_attention_cubic_in_semiring_witness :
  G.qkv_attention (of_R w_a) (of_R w_b) (of_R (eye 2))
                  (G.scale (A := ArithR) 3 (of_R x_four))
  = fmap (G.scale (A := ArithR) (3 * 3 * 3))
         (G.qkv_attention (of_R w_a) (of_R w_b) (of_R (eye 2))
                          (of_R x_four)).
Proof.
  apply (@qkv_attention_cubic_in_semiring ArithR R_semi_ring
           (of_R w_a) (of_R w_b) (of_R (eye 2)) (of_R x_four) 3).
Defined.

(** C10, as stated, fails in float32.  By rounding: on [[257]] with the
    1 x 1 identity for weights and [c = 3], [qkv_attention (c * x)] is
    458314016 and [c * c * c * qkv_attention x] is 458313984.  By overflow:
    on [[2 ^ 50]] with [c = 2 ^ -10] the first is [2 ^ 120] and the second
    is infinite. *)
Lemma f32_scaling_not_cubic :
  G.qkv_attention (G.eye ArithF32 1) (G.eye ArithF32 1) (G.eye ArithF32 1)
                  (G.scale (A := ArithF32) (f32_of_Z 3) f32_x_257)
  = Ok (G.mkTensor ArithF32 1 1 [[f32_of_Z 458314016]])
  /\ fmap (G.scale (A := ArithF32) (mul ArithF32 (mul ArithF32 (f32_of_Z 3) (f32_of_Z 3))
                                 (f32_of_Z 3)))
          (G.qkv_attention (G.eye ArithF32 1) (G.eye ArithF32 1)
                           (G.eye ArithF32 1) f32_x_257)
     = Ok (G.mkTensor ArithF32 1 1 [[f32_of_Z 458313984]])
  /\ G.qkv_attention (G.eye ArithF32 1) (G.eye ArithF32 1) (G.eye ArithF32 1)
                     (G.scale (A := ArithF32) f32_pow_m10 f32_x_pow50)
     = Ok (G.mkTensor ArithF32 1 1 [[f32_of_Z (2 ^ 120)]])
  /\ fmap (G.scale (A := ArithF32) (mul ArithF32 (mul ArithF32 f32_pow_m10 f32_pow_m10)
                                 f32_pow_m10))
          (G.qkv_attention (G.eye ArithF32 1) (G.eye ArithF32 1)
                           (G.eye ArithF32 1) f32_x_pow50)
     = Ok (G.mkTensor ArithF32 1 1 [[Some (S754_infinity false)]])
  /\ G.qkv_attention (G.eye ArithF32 1) (G.eye ArithF32 1) (G.eye ArithF32 1)
                     (G.scale (A := ArithF32) (f32_of_Z 3) f32_x_257)
     <> fmap (G.scale (A := ArithF32)
                (mul ArithF32 (mul ArithF32 (f32_of_Z 3) (f32_of_Z 3))
                     (f32_of_Z 3)))
             (G.qkv_attention (G.eye ArithF32 1) (G.eye ArithF32 1)
                              (G.eye ArithF32 1) f32_x_257).
Proof.
  split; [reflexivity|]. split; [reflexivity|]. split; [reflexivity|].
  split; [reflexivity|].
  intros E.
  apply (f_equal (fun r : result (G.Tensor ArithF32) =>
                    match r with
                    | inr t => G.get t 0 0
                    | inl _ => zero ArithF32
                    end)) in E.
  change (f32_of_Z 458314016 = f32_of_Z 458313984) in E.
  vm_compute in E. discriminate E.
Qed.

(** ** float32 facts *)

Lemma f32_sub_diag (a : f32) :
  f32_finite a = true -> sub ArithF32 a a = zero ArithF32.
Proof.
  destruct a as [[s| | |s m e]|]; try discriminate; intros _; simpl.
  - now destruct s.
  - unfold SFsub. rewrite Z.sub_diag. reflexivity.
Qed.

Lemma f32_exp_zero : expf ArithF32 (zero ArithF32) = one ArithF32.
Proof. reflexivity. Qed.

Lemma f32_div_one :
  div ArithF32 (one ArithF32) (one ArithF32) = one ArithF32.
Proof. reflexivity. Qed.

Lemma f32_mul_one_finite (s : bool) (m : positive) (e : Z) :
  bounded 24 128 m e = true ->
  SFmul 24 128 (SFone 24 128) (S754_finite s m e) = S754_finite s m e.
Proof.
  intros H. unfold bounded in H. apply andb_prop in H. destruct H as [Hc He].
  unfold canonical_mantissa in Hc. apply Z.eqb_eq in Hc.
  change (SFone 24 128) with (S754_finite false 8388608 (-23)).
  unfold SFmul. cbn [xorb Pos.mul].
  unfold binary_round_aux, shr_fexp.
  cbn [Zdigits2 digits2_pos shr_record_of_loc].
  match goal with
  | |- context [shr _ (-23 + e)%Z ?n] =>
    replace n with 23%Z
      by (match goal with
          | |- context [fexp 24 128 ?a] =>
            replace a with (Z.pos (digits2_pos m) + e)%Z by lia
          end; rewrite Hc; lia)
  end.
  unfold shr at 1. cbn [iter_pos shr_1 orb shr_m loc_of_shr_record
                        round_nearest_even Zdigits2].
  replace (-23 + e + 23)%Z with e by lia.
  rewrite Hc, Z.sub_diag. cbn [shr shr_m]. now rewrite He.
Qed.

Lemma f32_mul_one (a : f32) :
  f32_valid a = true -> mul ArithF32 (one ArithF32) a = a.
Proof.
  destruct a as [[s|s| |s m e]|]; try discriminate; intros H; simpl;
    try reflexivity.
  f_equal. now apply f32_mul_one_finite.
Qed.

(** ** A single vector *)

Section SingleRow.

Variable A : Arith.
Variables valid finite : num A -> bool.
Hypothesis sub_diag : forall a, finite a = true -> sub A a a = zero A.
Hypothesis exp_zero : expf A (zero A) = one A.
Hypothesis div_one : div A (one A) (one A) = one A.
Hypothesis mul_one : forall a, valid a = true -> mul A (one A) a = a.

Lemma G_basic_attention_single_row (x : G.Tensor A) :
  G.wf x = true -> G.nrows x = 1%nat ->
  forallb (forallb valid) (G.data x) = true ->
  finite (G.dot_rows x 0 0) = true ->
  G.basic_attention x = Ok x.
Proof.
  intros Hwf H1 Hval Hfin. rewrite G_basic_attention_closed. f_equal.
  rewrite <- (@G_build_get A x Hwf) at 3.
  apply G_build_ext. intros i j Hi Hj.
  assert (i = 0%nat) as -> by lia.
  rewrite H1. unfold G.bigsum. simpl.
  unfold G.softmax_row, G.rowmax, G.sum. simpl.
  rewrite (@sub_diag _ Hfin), exp_zero, div_one.
  apply mul_one.
  unfold G.wf in Hwf. apply andb_prop in Hwf. destruct Hwf as [Hlen Hrow].
  apply Nat.eqb_eq in Hlen. rewrite forallb_forall in Hrow, Hval.
  unfold G.get.
  assert (In (nth 0 (G.data x) []) (G.data x)) as Hin
      by (apply nth_In; lia).
  specialize (Hval _ Hin). specialize (Hrow _ Hin).
  apply Nat.eqb_eq in Hrow. rewrite forallb_forall in Hval.
  apply Hval, nth_In. lia.
Qed.

End SingleRow.

(** C9, amended: on a float32 input with a single row of proper float32
    values whose score [x . x] is finite, [basic_attention] returns the
    input itself: the row maximum is subtracted, so the 1 x 1 score
    softmaxes to exactly one. *)
Theorem f32_basic_attention_single_row (x : G.Tensor ArithF32) :
  G.wf x = true -> G.nrows x = 1%nat ->
  forallb (forallb f32_valid) (G.data x) = true ->
  f32_finite (G.dot_rows x 0 0) = true ->
  G.basic_attention x = Ok x.
Proof.
  apply G_basic_attention_single_row with (finite := f32_finite).
  - apply f32_sub_diag.
  - apply f32_exp_zero.
  - apply f32_div_one.
  - apply f32_mul_one.
Qed.

Lemma f32_basic_attention_single_row_witness :
  G.basic_attention f32_x_single = Ok f32_x_single.
Proof.
  apply (@f32_basic_attention_single_row f32_x_single); reflexivity.
Defined.

(** C9, as stated, fails in float32: on [[1e20, 0]] the score overflows to
    infinity, its softmax is NaN, and [basic_attention] returns
    [[NaN, NaN]]. *)
Lemma f32_single_row_overflow :
  G.wf f32_x_large = true /\ G.nrows f32_x_large = 1%nat
  /\ G.dot_rows f32_x_large 0 0 = Some (S754_infinity false)
  /\ G.basic_attention f32_x_large
     = Ok (G.mkTensor ArithF32 1 2 [[Some S754_nan; Some S754_nan]])
  /\ G.basic_attention f32_x_large <> Ok f32_x_large.
Proof.
  split; [reflexivity|]. split; [reflexivity|]. split; [reflexivity|].
  split; [reflexivity|].
  intros E.
  apply (f_equal (fun r : result (G.Tensor ArithF32) =>
                    match r with
                    | inr t => G.get t 0 0
                    | inl _ => zero ArithF32
                    end)) in E.
  change (Some S754_nan = f32_of_Z (10 ^ 20)) in E.
  vm_compute in E. discriminate E.
Qed.

(** C5, amended: on float32 tensors [basic_attention] raises no error, and
    [qkv_attention] raises, with torch's error for mismatched [matmul]
    operands, exactly when the column count of [x] differs from the row
    count of a weight or the column counts of [wq] and [wk] differ;
    otherwise it returns, also for a sequence of length zero. *)
Theorem f32_attention_raises_on_shapes_only
        (wq wk wv x : G.Tensor ArithF32) :
  (exists y, G.basic_attention x = Ok y
             /\ G.nrows y = G.nrows x /\ G.ncols y = G.ncols x)
  /\ (if (G.ncols x =? G.nrows wq)%nat && (G.ncols x =? G.nrows wk)%nat
         && (G.ncols x =? G.nrows wv)%nat && (G.ncols wq =? G.ncols wk)%nat
      then exists y, G.qkv_attention wq wk wv x = Ok y
                     /\ G.nrows y = G.nrows x /\ G.ncols y = G.ncols wv
      else G.qkv_attention wq wk wv x = Raise RuntimeError).
Proof.
  split.
  - eexists. split; [apply G_basic_attention_closed|]. split; reflexivity.
  - rewrite G_qkv_attention_closed. unfold G.shapes_ok.
    destruct ((G.ncols x =? G.nrows wq)%nat && (G.ncols x =? G.nrows wk)%nat
              && (G.ncols x =? G.nrows wv)%nat
              && (G.ncols wq =? G.ncols wk)%nat).
    + eexists. split; [reflexivity|]. split; reflexivity.
    + reflexivity.
Qed.

(** ** The exact model is the generic one at exact arithmetic *)

Lemma G_sum_R (l : list R) : G.sum ArithR l = Rsum l.
Proof.
  induction l as [|a l IH].
  - reflexivity.
  - rewrite (@G_sum_cons ArithR R_semi_ring). simpl. now rewrite IH.
Qed.

Lemma G_bigsum_R (n : nat) (f : nat -> R) : G.bigsum ArithR n f = bigsum n f.
Proof. unfold G.bigsum, bigsum. apply G_sum_R. Qed.

Lemma of_R_build (t d : nat) (f : nat -> nat -> R) :
  of_R (build t d f) = G.build ArithR t d f.
Proof. reflexivity. Qed.

Lemma G_proj_R (x w : Tensor) (i j : nat) :
  G.proj (of_R x) (of_R w) i j = proj x w i j.
Proof. unfold G.proj, proj. apply G_bigsum_R. Qed.

Lemma qkv_attention_generic (wq wk wv x : Tensor) :
  G.qkv_attention (of_R wq) (of_R wk) (of_R wv) (of_R x)
  = fmap of_R (qkv_attention wq wk wv x).
Proof.
  rewrite G_qkv_attention_closed, qkv_attention_closed.
  unfold G.shapes_ok, qkv_shapes_ok. simpl.
  destruct ((ncols x =? nrows wq)%nat && (ncols x =? nrows wk)%nat
            && (ncols x =? nrows wv)%nat && (ncols wq =? ncols wk)%nat);
    [|reflexivity].
  unfold fmap. simpl. f_equal. rewrite of_R_build.
  apply G_build_ext. intros i j Hi Hj.
  rewrite G_bigsum_R. apply bigsum_ext. intros k Hk.
  rewrite G_bigsum_R, G_proj_R. f_equal.
  apply bigsum_ext. intros l Hl. now rewrite !G_proj_R.
Qed.

(** Subtracting the row maximum does not change an exact softmax. *)
Lemma G_softmax_row_R (r : list R) : G.softmax_row ArithR r = softmax_row r.
Proof.
  unfold G.softmax_row, softmax_row. simpl.
  set (m := G.rowmax ArithR r).
  rewrite G_sum_R, !map_map.
  assert (Rsum (map (fun v => exp (v - m)) r) = / exp m * Rsum (map exp r))
    as -> .
  { rewrite <- Rsum_map_scal. f_equal. apply map_ext. intros v.
    unfold Rminus. rewrite exp_plus, exp_Ropp. ring. }
  destruct r as [|a r'] eqn:E; [reflexivity|]. rewrite <- E.
  assert (0 < Rsum (map exp r)) as Hpos
      by (apply Rsum_map_pos; [apply exp_pos | rewrite E; discriminate]).
  apply map_ext. intros v.
  unfold Rminus. rewrite exp_plus, exp_Ropp. field.
  split; [lra | apply exp_neq_0].
Qed.

Lemma G_dot_rows_R (x : Tensor) (i j : nat) :
  G.dot_rows (of_R x) i j = dot_rows x i j.
Proof. unfold G.dot_rows, dot_rows. apply G_bigsum_R. Qed.

Lemma basic_attention_generic (x : Tensor) :
  G.basic_attention (of_R x) = fmap of_R (basic_attention x).
Proof.
  rewrite G_basic_attention_closed, basic_attention_closed.
  unfold fmap. simpl. f_equal. rewrite of_R_build.
  apply G_build_ext. intros i j Hi Hj.
  rewrite G_bigsum_R. apply bigsum_ext. intros k Hk.
  change (G.get (of_R x) k j) with (get x k j). f_equal.
  rewrite G_softmax_row_R.
  rewrite (map_seq_ext _ (dot_rows x i))
    by (intros; apply G_dot_rows_R).
  rewrite nth_softmax_row by (now rewrite length_map, length_seq).
  rewrite length_map, length_seq. unfold softmax_entry.
  rewrite nth_map_seq by assumption. f_equal.
  apply bigsum_ext. intros l Hl. now rewrite nth_map_seq.
Qed.

(** ** Row selection with indices of any sign *)

Lemma wrap_index_Some (t : nat) (i : Z) :
  (- Z.of_nat t <= i < Z.of_nat t)%Z ->
  exists k, wrap_index t i = Some k /\ (k < t)%nat
            /\ Z.of_nat k = (if (i <? 0)%Z then i + Z.of_nat t else i)%Z.
Proof.
  intros H. unfold wrap_index.
  destruct (Z.ltb_spec i 0) as [Hneg|Hpos].
  - replace ((0 <=? i) && (i <? Z.of_nat t))%Z with false
      by (symmetry; apply andb_false_iff; left; apply Z.leb_gt; lia).
    replace ((- Z.of_nat t <=? i) && true)%Z with true
      by (symmetry; rewrite andb_true_r; apply Z.leb_le; lia).
    eexists. split; [reflexivity|]. split; lia.
  - replace ((0 <=? i) && (i <? Z.of_nat t))%Z with true
      by (symmetry; apply andb_true_iff; split;
          [apply Z.leb_le | apply Z.ltb_lt]; lia).
    eexists. split; [reflexivity|]. split; lia.
Qed.

Lemma wrap_index_None (t : nat) (i : Z) :
  wrap_index t i = None <-> (i < - Z.of_nat t \/ Z.of_nat t <= i)%Z.
Proof.
  split.
  - intros H.
    destruct (Z_lt_ge_dec i (- Z.of_nat t)) as [|H1]; [now left|].
    destruct (Z_lt_ge_dec i (Z.of_nat t)) as [H2|]; [|right; lia].
    destruct (@wrap_index_Some t i) as [k [E _]]; [lia|]. congruence.
  - intros H. unfold wrap_index.
    destruct (Z.leb_spec 0 i), (Z.ltb_spec i (Z.of_nat t)),
      (Z.leb_spec (- Z.of_nat t) i), (Z.ltb_spec i 0);
      simpl; try reflexivity; lia.
Qed.

(** X12: [x[perm]] accepts the indices from [-t] to [t - 1], a negative
    index counting from the end, and raises exactly when some index is
    outside that range; the result has one row per index and is well formed
    when [x] is; selecting [0 .. t - 1] gives [x] back. *)
Theorem index_rows_long_bounds (x : Tensor) (p : list Z) :
  wf x = true ->
  (index_rows_long x p = Raise IndexError
   <-> exists i, In i p
                 /\ (i < - Z.of_nat (nrows x) \/ Z.of_nat (nrows x) <= i)%Z)
  /\ ((forall i, In i p -> (- Z.of_nat (nrows x) <= i < Z.of_nat (nrows x))%Z) ->
      exists y, index_rows_long x p = Ok y
                /\ nrows y = length p /\ ncols y = ncols x
                /\ wf y = true
                /\ forall k j, (k < length p)%nat ->
                     get y k j =
                     get x (Z.to_nat (let i := nth k p 0%Z in
                                      if (i <? 0)%Z
                                      then i + Z.of_nat (nrows x) else i)) j)
  /\ index_rows_long x (map Z.of_nat (seq 0 (nrows x))) = Ok x.
Proof.
  intros Hwf. unfold index_rows_long.
  set (ok := fun i => match wrap_index (nrows x) i with
                      | Some _ => true | None => false end).
  split; [|split].
  - destruct (forallb ok p) eqn:E.
    + split; [discriminate|]. intros [i [Hin Hout]].
      rewrite forallb_forall in E. specialize (E i Hin). unfold ok in E.
      apply wrap_index_None in Hout. now rewrite Hout in E.
    + split; [|reflexivity]. intros _.
      destruct (existsb (fun i => negb (ok i)) p) eqn:E'.
      * apply existsb_exists in E'. destruct E' as [i [Hin Hi]].
        exists i. split; [assumption|]. apply wrap_index_None.
        unfold ok in Hi. now destruct (wrap_index (nrows x) i).
      * assert (forallb ok p = true) as F.
        { apply forallb_forall. intros i Hin.
          destruct (ok i) eqn:Ei; [reflexivity|].
          assert (existsb (fun i => negb (ok i)) p = true) as F'
              by (apply existsb_exists; exists i; now rewrite Ei).
          congruence. }
        congruence.
  - intros Hall.
    assert (forallb ok p = true) as ->.
    { apply forallb_forall. intros i Hin. unfold ok.
      destruct (@wrap_index_Some _ _ (Hall i Hin)) as [k [-> _]]. reflexivity. }
    eexists. split; [reflexivity|]. split; [reflexivity|].
    split; [reflexivity|]. split.
    + unfold wf. simpl. rewrite length_map, Nat.eqb_refl. simpl.
      apply forallb_forall. intros r Hr.
      apply in_map_iff in Hr. destruct Hr as [i [<- Hin]].
      destruct (@wrap_index_Some _ _ (Hall i Hin)) as [k [-> [Hk _]]].
      now apply Nat.eqb_eq, wf_row_length.
    + intros k j Hk. unfold get at 1. simpl.
      set (sel := fun i => match wrap_index (nrows x) i with
                           | Some k => nth k (data x) []
                           | None => []
                           end).
      rewrite (nth_indep _ [] (sel 0%Z)) by (now rewrite length_map).
      rewrite (map_nth sel p 0%Z). unfold sel.
      destruct (@wrap_index_Some _ _ (Hall _ (nth_In p 0%Z Hk)))
        as [k' [-> [_ Hk']]].
      unfold get. rewrite <- Hk', Nat2Z.id. reflexivity.
  - assert (forall k, (k < nrows x)%nat ->
              wrap_index (nrows x) (Z.of_nat k) = Some k) as Hw.
    { intros k Hk. destruct (@wrap_index_Some (nrows x) (Z.of_nat k))
        as [k' [E [_ Hk']]]; [lia|].
      rewrite E. f_equal.
      destruct (Z.ltb_spec (Z.of_nat k) 0); lia. }
    assert (forallb ok (map Z.of_nat (seq 0 (nrows x))) = true) as ->.
    { apply forallb_forall. intros i Hin. apply in_map_iff in Hin.
      destruct Hin as [k [<- Hk]]. apply in_seq in Hk. unfold ok.
      rewrite Hw by lia. reflexivity. }
    rewrite length_map, length_seq, map_map.
    rewrite <- (@build_get x Hwf) at 4. unfold build. f_equal. f_equal.
    apply map_seq_ext. intros k Hk. rewrite Hw by assumption.
    rewrite <- (@wf_row_length x k Hwf Hk). unfold get.
    symmetry. apply map_seq_nth.
Qed.

Lemma index_rows_long_bounds_witness :
  wf x_four = true
  /\ index_rows_long x_four [-1; 0; -5]%Z = Raise IndexError
  /\ index_rows_long x_four (map Z.of_nat (seq 0 (nrows x_four)))
     = Ok x_four.
Proof.
  split; [reflexivity|].
  destruct (@index_rows_long_bounds x_four [-1; 0; -5]%Z eq_refl)
    as [[_ Hraise] [_ Hid]].
  split; [|exact Hid].
  apply Hraise. exists (-5)%Z. split; [simpl; tauto | simpl; lia].
Defined.

(** On non-negative indices the two selections agree. *)
Lemma index_rows_long_of_nat (x : Tensor) (p : list nat) :
  index_rows_long x (map Z.of_nat p) = index_rows x p.
Proof.
  assert (forall k, wrap_index (nrows x) (Z.of_nat k)
                    = if (k <? nrows x)%nat then Some k else None) as Hw.
  { intros k. destruct (Nat.ltb_spec k (nrows x)) as [Hk|Hk].
    - destruct (@wrap_index_Some (nrows x) (Z.of_nat k))
        as [k' [E [_ Hk']]]; [lia|].
      rewrite E. f_equal. destruct (Z.ltb_spec (Z.of_nat k) 0); lia.
    - apply wrap_index_None. lia. }
  unfold index_rows_long, index_rows.
  rewrite length_map, map_map.
  assert (forallb (fun i => match wrap_index (nrows x) i with
                            | Some _ => true
                            | None => false
                            end) (map Z.of_nat p)
          = forallb (fun i => (i <? nrows x)%nat) p) as ->.
  { induction p as [|k p IH]; simpl; [reflexivity|].
    rewrite IH, Hw. now destruct (k <? nrows x)%nat. }
  destruct (forallb (fun i => (i <? nrows x)%nat) p) eqn:E; [|reflexivity].
  f_equal. f_equal. apply map_ext_in. intros k Hk.
  rewrite forallb_forall in E. rewrite Hw, (E k Hk). reflexivity.
Qed.
